(** * lazy-jest: the case enumeration engine

    A shallow embedding of [src/caseGenerator/enumerateCases.js] and the
    verification of its specification.

    The module exports two higher-order functions, [appendArgCases] and
    [enumerateCases].  Both receive an [appendMethod] callback supplied by
    the caller.  A JavaScript callback may read and write state of its own
    and may throw, so the embedding runs the code in a small state and
    exception monad: a computation takes the state of the world and gives
    a completion (a value, or a thrown value) with the new state.  A
    statement that holds for every callback and every initial world then
    says what the engine does on its own, e.g. that it returns without
    ever calling the callback. *)

From Stdlib Require Import String.
From Stdlib Require Import List ZArith Lia Bool.
Import ListNotations.
Local Open Scope Z_scope.

Set Implicit Arguments.

(** ** JavaScript values *)

(** The sample values of an argument ([any] in the Flow signature).
    Numbers are the integers: a sample is only ever stored in a list and
    handed to the callback; the engine does no arithmetic on it. *)
#[warnings="-register-all"]
Inductive JsVal : Type :=
| JUndefined
| JNull
| JBool (b : bool)
| JNum (n : Z)
| JStr (s : string)
| JArr (elems : list JsVal).

(** [arr[n]] for an integer [n]: [undefined] (here [None]) outside
    [0 .. arr.length - 1]. *)
Definition index {A : Type} (arr : list A) (n : Z) : option A :=
  if n <? 0 then None else nth_error arr (Z.to_nat n).

(** [arr[n]] on an array of values, where the missing element is the
    value [undefined]. *)
Definition elem (arr : list JsVal) (n : Z) : JsVal :=
  match index arr n with
  | Some v => v
  | None => JUndefined
  end.

(** ** Completions and effects *)

Inductive Completion (A : Type) : Type :=
| Normal (a : A)
| Abrupt (thrown : JsVal).
Arguments Abrupt {A} thrown.

Definition Eff (World A : Type) : Type := World -> Completion A * World.

Definition ret {World A : Type} (a : A) : Eff World A :=
  fun w => (Normal a, w).

Definition throw {World A : Type} (e : JsVal) : Eff World A :=
  fun w => (Abrupt e, w).

Definition bind {World A B : Type}
  (m : Eff World A) (k : A -> Eff World B) : Eff World B :=
  fun w =>
    match m w with
    | (Normal a, w') => k a w'
    | (Abrupt e, w') => (Abrupt e, w')
    end.

Notation "x <- m ;; k" := (bind m (fun x => k))
  (at level 61, m at next level, right associativity).

(** The error of reading a property of [undefined]. *)
Definition TypeError : JsVal := JStr "TypeError".

(** [arr.reduce(callback, init)]: a left fold; the callback receives the
    accumulator, the element and the element's index. *)
Fixpoint reduceFrom {World A B : Type}
  (callback : B -> A -> Z -> Eff World B) (arr : list A) (i : Z) (acc : B)
  : Eff World B :=
  match arr with
  | [] => ret acc
  | x :: rest =>
      acc' <- callback acc x i ;;
      reduceFrom callback rest (i + 1) acc'
  end.

Definition reduce {World A B : Type}
  (callback : B -> A -> Z -> Eff World B) (arr : list A) (init : B)
  : Eff World B :=
  reduceFrom callback arr 0 init.

(** ** The data model *)

(** Modelled from the spec: the type [ArgConfig] is imported from
    [../index.flow], which is not part of the sources.  Section 3 of the
    specification gives its attributes: [name], [validCases] (an ordered
    sequence, possibly empty), [invalidCases] (an ordered sequence,
    possibly empty, and possibly missing: section 4.3 and scenario 5) and
    the flag [optional]. *)
Record ArgConfig : Type := mkArgConfig {
  name : string;
  validCases : list JsVal;
  invalidCases : option (list JsVal);
  optional : bool
}.

(** [invalidArgConfigIndex?: number]: absent, or an integer (the
    specification declares [faultedIndex?: integer]). *)
Definition OptIndex : Type := option Z.

(** [typeof x === 'number'] *)
Definition isNumber (x : OptIndex) : bool :=
  match x with Some _ => true | None => false end.

(** [i === x], for a number [i] *)
Definition strictEq (i : Z) (x : OptIndex) : bool :=
  match x with Some n => i =? n | None => false end.

(** [x < 0]; [undefined < 0] is [false]. *)
Definition isNegative (x : OptIndex) : bool :=
  match x with Some n => n <? 0 | None => false end.

(** Truthiness of [invalidArgConf]: an object is truthy, [undefined] is
    not. *)
Definition truthy {A : Type} (x : option A) : bool :=
  match x with Some _ => true | None => false end.

(** [!invalidCases || !invalidCases.length] *)
Definition missingOrEmpty (cases : option (list JsVal)) : bool :=
  match cases with
  | None => true
  | Some l => (length l =? 0)%nat
  end.

(** ** The engine *)

Section Engine.

(** The state the callback may use, and the representation of a case;
    the engine inspects neither. *)
Variable World : Type.
Variable C : Type.

(** [appendMethod(cases, nextArgCase)] *)
Definition AppendMethod : Type := list C -> JsVal -> Eff World (list C).

(** Lines 13-22. *)
Definition appendArgCases (appendMethod : AppendMethod)
  (cases : list C) (nextArgCases : list JsVal) : Eff World (list C) :=
  reduce
    (fun appendedCases nextArgCase (_ : Z) =>
       newCases <- appendMethod cases nextArgCase ;;
       ret (appendedCases ++ newCases))
    nextArgCases [].

(** Lines 60-87.  [multiAppend(processedCases, invalidCases)] on a
    missing [invalidCases] would read [undefined.reduce]. *)
Definition enumerateCases (appendMethod : AppendMethod)
  (argsConfig : list ArgConfig) (invalidArgConfigIndex : OptIndex)
  : Eff World (list C) :=
  let multiAppend := appendArgCases appendMethod in
  let invalidArgConf :=
    match invalidArgConfigIndex with
    | Some n => index argsConfig n
    | None => None
    end in
  let invalidCases_ :=
    match invalidArgConf with
    | Some conf => invalidCases conf
    | None => None
    end in
  if truthy invalidArgConf && missingOrEmpty invalidCases_ then ret []
  else
    reduce
      (fun processedCases conf i =>
         if strictEq i invalidArgConfigIndex then
           match invalidCases_ with
           | Some cases => multiAppend processedCases cases
           | None => throw TypeError
           end
         else
           let validCases_ := validCases conf in
           if negb (isNumber invalidArgConfigIndex)
              || isNegative invalidArgConfigIndex
           then multiAppend processedCases validCases_
           else appendMethod processedCases (elem validCases_ 0))
      argsConfig [].

End Engine.

Arguments appendArgCases {World C} appendMethod cases nextArgCases.
Arguments enumerateCases {World C} appendMethod argsConfig invalidArgConfigIndex.

(** ** Callbacks *)

(** A callback without effects: it returns [extend cases value] and
    leaves the world as it is. *)
Definition pureMethod {World C : Type}
  (extend : list C -> JsVal -> list C) : AppendMethod World C :=
  fun cases value => ret (extend cases value).

(** One invocation of the callback: the two arguments it received. *)
Definition Call (C : Type) : Type := (list C * JsVal)%type.

(** The callback [extend] instrumented to write down every invocation.
    The world is the list of the invocations so far, oldest first. *)
Definition recorded {C : Type}
  (extend : list C -> JsVal -> list C) : AppendMethod (list (Call C)) C :=
  fun cases value calls => (Normal (extend cases value), calls ++ [(cases, value)]).

(** A callback that throws on every invocation. *)
Definition failing {World C : Type} (e : JsVal) : AppendMethod World C :=
  fun _ _ => throw e.

(** [c.concat(v)] on an array [c]: an array argument is spread, any other
    value is appended as one element. *)
Definition jsConcat (c : list JsVal) (v : JsVal) : list JsVal :=
  match v with
  | JArr elems => c ++ elems
  | _ => c ++ [v]
  end.

(** Modelled from the spec: the simple positional strategy of section 8,
    which is not part of the sources; a case is the array of the
    arguments of one call.  [extend([], v) = [[v]]] and
    [extend(cases, v) = cases.map(c => c.concat(v))]. *)
Definition positionalExtend
  (cases : list (list JsVal)) (v : JsVal) : list (list JsVal) :=
  match cases with
  | [] => [[v]]
  | _ :: _ => map (fun c => jsConcat c v) cases
  end.

(** ** The plans, as the specification words them *)

(** A left-to-right fold with an effectful step. *)
Fixpoint foldM {World A B : Type}
  (step : B -> A -> Eff World B) (l : list A) (acc : B) : Eff World B :=
  match l with
  | [] => ret acc
  | x :: rest => acc' <- step acc x ;; foldM step rest acc'
  end.

(** The elements of a sequence with their positions [0, 1, 2, ...]. *)
Definition withPositions {A : Type} (l : list A) : list (Z * A) :=
  combine (map Z.of_nat (seq 0 (length l))) l.

Section Plans.

Variable World : Type.
Variable C : Type.
Variable extend : AppendMethod World C.

(** Section 4.2: "for each value in [candidates], invoke
    [strategy.extend(cases, value)] ..." *)
Fixpoint extendEach (cases : list C) (candidates : list JsVal)
  : Eff World (list (list C)) :=
  match candidates with
  | [] => ret []
  | value :: rest =>
      r <- extend cases value ;;
      rs <- extendEach cases rest ;;
      ret (r :: rs)
  end.

(** "... then concatenate all resulting lists, in the order
    [candidates] was given." *)
Definition concatOfExtensions (cases : list C) (candidates : list JsVal)
  : Eff World (list C) :=
  rs <- extendEach cases candidates ;;
  ret (concat rs).

(** Section 4.3, all-valid plan: at each slot,
    [expandAll(strategy)(accumulated, config.validCases)]. *)
Definition allValidPlan (configs : list ArgConfig) : Eff World (list C) :=
  foldM
    (fun accumulated config =>
       appendArgCases extend accumulated (validCases config))
    configs [].

(** Section 4.3, single-faulted plan: at the faulted index,
    [expandAll(strategy)(accumulated, faulted.invalidCases)]; at every
    other index [j], [strategy.extend(accumulated,
    configs[j].validCases[0])]. *)
Definition faultedStep (faultedIndex : Z) (faultedInvalidCases : list JsVal)
  (accumulated : list C) (j : Z) (config : ArgConfig)
  : Eff World (list C) :=
  if j =? faultedIndex
  then appendArgCases extend accumulated faultedInvalidCases
  else extend accumulated (elem (validCases config) 0).

Definition singleFaultedPlan (configs : list ArgConfig)
  (faultedIndex : Z) (faultedInvalidCases : list JsVal)
  : Eff World (list C) :=
  foldM
    (fun accumulated '(j, config) =>
       faultedStep faultedIndex faultedInvalidCases accumulated j config)
    (withPositions configs) [].

(** Every slot pinned to its first valid sample. *)
Definition allPinnedPlan (configs : list ArgConfig) : Eff World (list C) :=
  foldM
    (fun accumulated config =>
       extend accumulated (elem (validCases config) 0))
    configs [].

End Plans.

(** ** The scenarios of section 8 *)

Module Scenario.

Definition conf (valid invalid : list JsVal) (opt : bool) : ArgConfig :=
  {| name := ""; validCases := valid; invalidCases := Some invalid;
     optional := opt |}.

(** [[{validCases:[true], invalidCases:[false]},
      {validCases:[1], invalidCases:[2]}]] *)
Definition configs1 : list ArgConfig :=
  [ conf [JBool true] [JBool false] false;
    conf [JNum 1] [JNum 2] false ].

(** [[{validCases:[true], invalidCases:[false, 0]},
      {validCases:[1, 2], invalidCases:[3]}]] *)
Definition configs3 : list ArgConfig :=
  [ conf [JBool true] [JBool false; JNum 0] false;
    conf [JNum 1; JNum 2] [JNum 3] false ].

(** A second argument without valid samples. *)
Definition configsNoValid : list ArgConfig :=
  [ conf [JBool true] [JBool false; JNum 0] false;
    conf [] [JNum 3] false ].

(** A first argument without the attribute [invalidCases]. *)
Definition configsNoInvalid : list ArgConfig :=
  [ {| name := ""; validCases := [JBool true]; invalidCases := None;
       optional := false |};
    conf [JNum 1] [JNum 2] false ].

End Scenario.

(** ** Predicates on runs *)

(** From the world [w], the computation [m] completes normally with a
    value that satisfies [P]. *)
Definition returns {World A : Type}
  (m : Eff World A) (w : World) (P : A -> Prop) : Prop :=
  exists a w', m w = (Normal a, w') /\ P a.

(** Over a record of invocations: [m] completes normally and only adds
    invocations at the end of the record. *)
Definition appends {C A : Type} (m : Eff (list (Call C)) A) : Prop :=
  forall calls, exists a new, m calls = (Normal a, calls ++ new).

(** ** Properties of a strategy *)

(** The strategy keeps the count of the cases: it returns one case from
    the empty case list and one case per existing case from any other. *)
Definition keepsCount {World C : Type} (extend : AppendMethod World C)
  : Prop :=
  (forall v w, returns (extend [] v) w (fun r => length r = 1%nat))
  /\ (forall cases v w,
         cases <> [] ->
         returns (extend cases v) w (fun r => length r = length cases)).

(** The strategy completes normally on every input, from every world. *)
Definition neverThrows {World C : Type} (extend : AppendMethod World C)
  : Prop :=
  forall cases v w, exists r w', extend cases v w = (Normal r, w').

Definition product (l : list nat) : nat := fold_right Nat.mul 1%nat l.

(** * Verification *)

(** ** The monad and the folds *)

Section FoldLemmas.

Variable World : Type.
Variables A B : Type.

(** Two callbacks that agree at the positions of the array give the
    same reduction. *)
Lemma reduceFrom_ext (f g : B -> A -> Z -> Eff World B) (arr : list A) :
  forall i,
    (forall acc x j w,
        i <= j < i + Z.of_nat (length arr) ->
        f acc x j w = g acc x j w) ->
    forall acc w, reduceFrom f arr i acc w = reduceFrom g arr i acc w.
Proof.
  induction arr as [|x rest IH]; intros i Hfg acc w; simpl.
  - reflexivity.
  - assert (Hlen : Z.of_nat (length (x :: rest))
                   = 1 + Z.of_nat (length rest))
      by (simpl length; lia).
    unfold bind. rewrite Hfg by lia.
    destruct (g acc x i w) as [[acc'|e] w']; [|reflexivity].
    apply IH. intros; apply Hfg; lia.
Qed.

(** A reduction whose callback ignores the index is a plain fold. *)
Lemma reduceFrom_foldM (step : B -> A -> Eff World B) (arr : list A) :
  forall i acc w,
    reduceFrom (fun acc x (_ : Z) => step acc x) arr i acc w
    = foldM step arr acc w.
Proof.
  induction arr as [|x rest IH]; intros i acc w; simpl.
  - reflexivity.
  - unfold bind. destruct (step acc x w) as [[acc'|e] w']; [|reflexivity].
    apply IH.
Qed.

(** A reduction is the fold over the elements paired with their
    positions. *)
Lemma reduceFrom_positions (f : B -> A -> Z -> Eff World B) (arr : list A) :
  forall k acc w,
    reduceFrom f arr (Z.of_nat k) acc w
    = foldM (fun acc '(j, x) => f acc x j)
        (combine (map Z.of_nat (seq k (length arr))) arr) acc w.
Proof.
  induction arr as [|x rest IH]; intros k acc w; simpl.
  - reflexivity.
  - unfold bind. destruct (f acc x (Z.of_nat k) w) as [[acc'|e] w'];
      [|reflexivity].
    replace (Z.of_nat k + 1) with (Z.of_nat (S k)) by lia.
    apply IH.
Qed.

(** Reducing a concatenation: the first part, then the second part
    from the index where the first one ends. *)
Lemma reduceFrom_app (f : B -> A -> Z -> Eff World B) (l1 l2 : list A) :
  forall i acc w,
    reduceFrom f (l1 ++ l2) i acc w
    = (acc' <- reduceFrom f l1 i acc ;;
       reduceFrom f l2 (i + Z.of_nat (length l1)) acc') w.
Proof.
  induction l1 as [|x rest IH]; intros i acc w.
  - simpl. unfold bind, ret. now rewrite Z.add_0_r.
  - replace (i + Z.of_nat (length (x :: rest)))
      with (i + 1 + Z.of_nat (length rest)) by (simpl length; lia).
    cbn [app reduceFrom]. unfold bind.
    destruct (f acc x i w) as [[acc'|e] w']; [|reflexivity].
    rewrite IH. reflexivity.
Qed.

End FoldLemmas.

(** ** Array access *)

Lemma index_negative (A : Type) (arr : list A) (n : Z) :
  n < 0 -> index arr n = None.
Proof.
  intros Hn. unfold index. destruct (n <? 0) eqn:E; [reflexivity|].
  apply Z.ltb_ge in E. lia.
Qed.

Lemma index_in_range (A : Type) (arr : list A) (n : Z) (x : A) :
  index arr n = Some x -> 0 <= n < Z.of_nat (length arr).
Proof.
  unfold index. destruct (n <? 0) eqn:E; [discriminate|].
  apply Z.ltb_ge in E. intros H.
  assert (Hlt : (Z.to_nat n < length arr)%nat)
    by (apply nth_error_Some; congruence).
  lia.
Qed.

Lemma index_out_of_range (A : Type) (arr : list A) (n : Z) :
  Z.of_nat (length arr) <= n -> index arr n = None.
Proof.
  intros Hn. unfold index. destruct (n <? 0); [reflexivity|].
  apply nth_error_None. lia.
Qed.

Lemma index_first (A : Type) (arr : list A) :
  index arr 0 = None <-> arr = [].
Proof.
  unfold index; simpl. destruct arr; split; intros H;
    try reflexivity; discriminate.
Qed.

(** ** [appendArgCases] *)

Section AppendArgCases.

Variable World : Type.
Variable C : Type.
Variable extend : AppendMethod World C.

(** The reduction of [appendArgCases], from any accumulator: the
    accumulator followed by the results of the invocations. *)
Lemma appendArgCases_reduce (cases : list C) (candidates : list JsVal) :
  forall i appended w,
    reduceFrom
      (fun appendedCases nextArgCase (_ : Z) =>
         newCases <- extend cases nextArgCase ;;
         ret (appendedCases ++ newCases))
      candidates i appended w
    = (rs <- extendEach extend cases candidates ;;
       ret (appended ++ concat rs)) w.
Proof.
  induction candidates as [|v rest IH]; intros i appended w.
  - cbn. now rewrite app_nil_r.
  - cbn [reduceFrom extendEach]. unfold bind.
    destruct (extend cases v w) as [[r|e] w']; [|reflexivity].
    cbn [ret]. rewrite IH. unfold bind.
    destruct (extendEach extend cases rest w') as [[rs|e] w''];
      [|reflexivity].
    cbn. now rewrite app_assoc.
Qed.

Lemma appendArgCases_unfold (cases : list C) (candidates : list JsVal)
  (w : World) :
  appendArgCases extend cases candidates w
  = concatOfExtensions extend cases candidates w.
Proof.
  unfold appendArgCases, reduce, concatOfExtensions.
  now rewrite appendArgCases_reduce.
Qed.

(** When every invocation on [cases] returns [n] cases, the reduction
    adds [n] cases per candidate. *)
Lemma appendArgCases_reduce_length (cases : list C) (n : nat) :
  (forall v w, returns (extend cases v) w (fun r => length r = n)) ->
  forall candidates i appended w,
    returns
      (reduceFrom
         (fun appendedCases nextArgCase (_ : Z) =>
            newCases <- extend cases nextArgCase ;;
            ret (appendedCases ++ newCases))
         candidates i appended)
      w
      (fun result =>
         length result = (length appended + n * length candidates)%nat).
Proof.
  intros Hn. induction candidates as [|v rest IH]; intros i appended w.
  - exists appended, w. split; [reflexivity|]. simpl. lia.
  - destruct (Hn v w) as (r & w' & Hrun & Hlen).
    destruct (IH (i + 1) (appended ++ r) w') as (res & w'' & Hrest & Hres).
    exists res, w''. split.
    + cbn [reduceFrom]. unfold bind. rewrite Hrun. exact Hrest.
    + rewrite Hres, length_app, Hlen. simpl length. lia.
Qed.

End AppendArgCases.

(** For a callback without effects, [appendArgCases] is the flat map of
    [extend cases] over the candidates. *)
Lemma appendArgCases_pure (World C : Type)
  (extend : list C -> JsVal -> list C) (cases : list C)
  (candidates : list JsVal) (w : World) :
  appendArgCases (pureMethod extend) cases candidates w
  = (Normal (concat (map (extend cases) candidates)), w).
Proof.
  rewrite appendArgCases_unfold. unfold concatOfExtensions.
  assert (H : forall l (w0 : World),
             extendEach (pureMethod extend) cases l w0
             = (Normal (map (extend cases) l), w0)).
  { induction l as [|v rest IH]; intros w0; [reflexivity|].
    cbn [extendEach map]. unfold bind, pureMethod at 1, ret at 1.
    now rewrite IH. }
  unfold bind. now rewrite H.
Qed.

(** C3.  For every strategy, case list and candidate list,
    [appendArgCases] (the specification's [expandAll]) invokes the
    strategy on [cases] and each candidate, in the order of the
    candidates, and returns the concatenation of the results in that
    order.  In particular on [[v1; v2]] it returns
    [extend cases v1 ++ extend cases v2], and on no candidates it returns
    the empty list (not [cases]) without invoking the strategy. *)
Theorem appendArgCases_concat_in_order :
  forall (World C : Type) (extend : AppendMethod World C) (cases : list C),
    (forall candidates w,
        appendArgCases extend cases candidates w
        = concatOfExtensions extend cases candidates w)
    /\ (forall v1 v2 w,
           appendArgCases extend cases [v1; v2] w
           = (r1 <- extend cases v1 ;;
              r2 <- extend cases v2 ;;
              ret (r1 ++ r2)) w)
    /\ (forall w, appendArgCases extend cases [] w = (Normal [], w)).
Proof.
  intros World C extend cases. split; [|split].
  - intros candidates w. apply appendArgCases_unfold.
  - intros v1 v2 w. unfold appendArgCases, reduce. cbn [reduceFrom].
    unfold bind.
    destruct (extend cases v1 w) as [[r1|e] w1]; [|reflexivity].
    cbn [ret].
    destruct (extend cases v2 w1) as [[r2|e] w2]; reflexivity.
  - intros w. reflexivity.
Qed.

(** C7.  For a strategy that returns one case on the empty case list and
    one case per existing case on a non-empty one, the result of
    [appendArgCases] has [length cases * length candidates] cases when
    [cases] is not empty and [length candidates] cases when it is. *)
Theorem appendArgCases_length :
  forall (World C : Type) (extend : AppendMethod World C),
    (forall v w, returns (extend [] v) w (fun r => length r = 1%nat)) ->
    (forall cases v w,
        cases <> [] ->
        returns (extend cases v) w (fun r => length r = length cases)) ->
    forall cases candidates w,
      returns (appendArgCases extend cases candidates) w
        (fun result =>
           length result
           = match cases with
             | [] => length candidates
             | _ :: _ => (length cases * length candidates)%nat
             end).
Proof.
  intros World C extend Hempty Hcases cases candidates w.
  unfold appendArgCases, reduce.
  destruct cases as [|c cases'].
  - destruct (@appendArgCases_reduce_length World C extend [] 1%nat
                Hempty candidates 0 [] w)
      as (res & w' & Hrun & Hlen).
    exists res, w'. split; [exact Hrun|]. rewrite Hlen. simpl. lia.
  - assert (Hne : c :: cases' <> []) by discriminate.
    destruct (@appendArgCases_reduce_length World C extend (c :: cases')
                (length (c :: cases'))
                (fun v w0 => Hcases (c :: cases') v w0 Hne) candidates 0 [] w)
      as (res & w' & Hrun & Hlen).
    exists res, w'. split; [exact Hrun|]. rewrite Hlen. reflexivity.
Qed.

Lemma appendArgCases_length_witness :
  returns
    (appendArgCases (World := unit) (pureMethod positionalExtend)
       [[JNum 0]; [JNum 1]] [JNum 2; JNum 3; JNum 4])
    tt (fun result => length result = 6%nat).
Proof.
  apply (@appendArgCases_length unit _ (pureMethod positionalExtend)).
  - intros v w. exists [[v]], w. split; reflexivity.
  - intros cases v w Hne. exists (positionalExtend cases v), w.
    split; [reflexivity|].
    destruct cases; [congruence|]. unfold positionalExtend.
    apply length_map.
Defined.

(** ** [enumerateCases] *)

Section EnumerateCases.

Variable World : Type.
Variable C : Type.
Variable extend : AppendMethod World C.

(** The index resolves to a configuration with invalid samples: no
    early return, and the callback of the reduction is the step of the
    single-faulted plan. *)
Lemma enumerateCases_faulted_reduce (configs : list ArgConfig) (k : Z)
  (faulted : ArgConfig) (invalid : list JsVal) (w : World) :
  index configs k = Some faulted ->
  invalidCases faulted = Some invalid ->
  invalid <> [] ->
  enumerateCases extend configs (Some k) w
  = reduceFrom
      (fun acc conf j => faultedStep extend k invalid acc j conf)
      configs 0 [] w.
Proof.
  intros Hidx Hinv Hne.
  assert (Hk : (k <? 0) = false)
    by (apply Z.ltb_ge; apply index_in_range in Hidx; lia).
  unfold enumerateCases, reduce. cbv zeta. rewrite Hidx, Hinv.
  destruct invalid as [|v invalid']; [congruence|].
  cbn [truthy missingOrEmpty length Nat.eqb andb].
  apply reduceFrom_ext. intros acc conf j w0 _.
  unfold faultedStep.
  cbn [strictEq isNumber isNegative negb orb]. rewrite Hk.
  reflexivity.
Qed.

(** In the single-faulted plan, a slot other than the faulted one and
    without valid samples: the strategy is invoked on the cases
    accumulated so far and [undefined], and the reduction goes on. *)
Lemma enumerateCases_faulted_split (before after : list ArgConfig)
  (conf faulted : ArgConfig) (k : Z) (invalid : list JsVal) (w : World) :
  index (before ++ conf :: after) k = Some faulted ->
  invalidCases faulted = Some invalid ->
  invalid <> [] ->
  Z.of_nat (length before) <> k ->
  validCases conf = [] ->
  enumerateCases extend (before ++ conf :: after) (Some k) w
  = (acc <- reduceFrom
              (fun acc conf j => faultedStep extend k invalid acc j conf)
              before 0 [] ;;
     acc' <- extend acc JUndefined ;;
     reduceFrom
       (fun acc conf j => faultedStep extend k invalid acc j conf)
       after (Z.of_nat (length before) + 1) acc') w.
Proof.
  intros Hidx Hinv Hne Hpos Hvalid.
  rewrite enumerateCases_faulted_reduce
    with (faulted := faulted) (invalid := invalid) by assumption.
  rewrite reduceFrom_app. cbn [reduceFrom Z.add].
  unfold faultedStep at 2.
  destruct (Z.eqb_spec (Z.of_nat (length before)) k) as [E|_];
    [contradiction|].
  rewrite Hvalid. reflexivity.
Qed.

End EnumerateCases.

(** C1.  For every strategy and configuration sequence, when the index
    resolves to a configuration whose [invalidCases] is a non-empty
    list, [enumerateCases] is the left-to-right fold from the empty case
    list that applies [appendArgCases] with the invalid samples at the
    faulted index and, at every other index [j], applies the strategy to
    the first valid sample of [configs[j]] only. *)
Theorem enumerateCases_single_faulted_plan :
  forall (World C : Type) (extend : AppendMethod World C)
         (configs : list ArgConfig) (faultedIndex : Z)
         (faulted : ArgConfig) (invalid : list JsVal) (w : World),
    index configs faultedIndex = Some faulted ->
    invalidCases faulted = Some invalid ->
    invalid <> [] ->
    enumerateCases extend configs (Some faultedIndex) w
    = singleFaultedPlan extend configs faultedIndex invalid w.
Proof.
  intros World C extend configs k faulted invalid w Hidx Hinv Hne.
  rewrite enumerateCases_faulted_reduce
    with (faulted := faulted) (invalid := invalid) by assumption.
  unfold singleFaultedPlan, withPositions.
  change 0 with (Z.of_nat 0). apply reduceFrom_positions.
Qed.

Lemma enumerateCases_single_faulted_plan_witness :
  enumerateCases (recorded positionalExtend) Scenario.configs3 (Some 1) []
  = singleFaultedPlan (recorded positionalExtend) Scenario.configs3 1
      [JNum 3] [].
Proof.
  apply (@enumerateCases_single_faulted_plan _ _
           (recorded positionalExtend) Scenario.configs3 1
           (Scenario.conf [JNum 1; JNum 2] [JNum 3] false) [JNum 3] []).
  - reflexivity.
  - reflexivity.
  - discriminate.
Defined.

(** C2.  For every strategy and configuration sequence, without an
    index [enumerateCases] is the left-to-right fold from the empty case
    list that at each slot applies [appendArgCases] with the valid
    samples of the slot. *)
Theorem enumerateCases_all_valid_plan :
  forall (World C : Type) (extend : AppendMethod World C)
         (configs : list ArgConfig) (w : World),
    enumerateCases extend configs None w = allValidPlan extend configs w.
Proof.
  intros World C extend configs w.
  unfold enumerateCases, allValidPlan, reduce. cbv zeta.
  cbn [truthy andb strictEq isNumber isNegative negb orb].
  apply reduceFrom_foldM.
Qed.

(** C4, as the code has it.  For a non-negative index that is not an
    index of [configs] (at or past its end) there is no early return:
    [enumerateCases] is the left-to-right fold from the empty case list
    that at every slot applies the strategy to the slot's first valid
    sample.  The strategy is invoked once per configuration (as long as
    it does not throw); the result is empty without an invocation only
    when [configs] is empty. *)
Theorem enumerateCases_out_of_range_pins_all :
  forall (World C : Type) (extend : AppendMethod World C)
         (configs : list ArgConfig) (faultedIndex : Z) (w : World),
    Z.of_nat (length configs) <= faultedIndex ->
    enumerateCases extend configs (Some faultedIndex) w
    = allPinnedPlan extend configs w.
Proof.
  intros World C extend configs k w Hk.
  unfold enumerateCases, allPinnedPlan, reduce. cbv zeta.
  rewrite (index_out_of_range configs Hk). cbn [truthy andb].
  rewrite <- (reduceFrom_foldM _ _ 0).
  apply reduceFrom_ext. intros acc conf j w0 Hj.
  cbn [strictEq isNumber isNegative negb orb].
  destruct (Z.eqb_spec j k) as [->|_]; [lia|].
  assert (Hpos : (k <? 0) = false) by (apply Z.ltb_ge; lia).
  now rewrite Hpos.
Qed.

Lemma enumerateCases_out_of_range_pins_all_witness :
  enumerateCases (recorded positionalExtend) Scenario.configs3 (Some 2) []
  = allPinnedPlan (recorded positionalExtend) Scenario.configs3 [].
Proof.
  apply (@enumerateCases_out_of_range_pins_all _ _
           (recorded positionalExtend) Scenario.configs3 2 []).
  simpl. lia.
Defined.

(** C4, as the specification has it, fails: with the positional strategy,
    the configurations of scenario 3 and the index [2] (the length of the
    sequence), [index] finds no configuration, and yet the result is
    [[[true, 1]]] after two invocations of the strategy, not the empty
    list after none. *)
Lemma enumerateCases_out_of_range_not_empty :
  0 <= 2
  /\ index Scenario.configs3 2 = None
  /\ enumerateCases (recorded positionalExtend) Scenario.configs3 (Some 2) []
     = (Normal [[JBool true; JNum 1]],
        [([], JBool true); ([[JBool true]], JNum 1)])
  /\ enumerateCases (recorded positionalExtend) Scenario.configs3 (Some 2) []
     <> (Normal [], []).
Proof.
  split; [lia|]. split; [reflexivity|]. split; [reflexivity|].
  discriminate.
Qed.

(** C5.  For every strategy and configuration sequence, when the index
    resolves to a configuration whose [invalidCases] is missing or
    empty, [enumerateCases] returns the empty case list and leaves the
    world as it was: no strategy is invoked, whatever it would do. *)
Theorem enumerateCases_vacuous_target :
  forall (World C : Type) (extend : AppendMethod World C)
         (configs : list ArgConfig) (faultedIndex : Z)
         (faulted : ArgConfig) (w : World),
    index configs faultedIndex = Some faulted ->
    invalidCases faulted = None \/ invalidCases faulted = Some [] ->
    enumerateCases extend configs (Some faultedIndex) w = (Normal [], w).
Proof.
  intros World C extend configs k faulted w Hidx Hinv.
  unfold enumerateCases. cbv zeta. rewrite Hidx. cbn [truthy andb].
  destruct Hinv as [-> | ->]; reflexivity.
Qed.

Lemma enumerateCases_vacuous_target_witness :
  enumerateCases (recorded positionalExtend) Scenario.configsNoInvalid
    (Some 0) []
  = (Normal [], []).
Proof.
  apply (@enumerateCases_vacuous_target _ _
           (recorded positionalExtend) Scenario.configsNoInvalid 0
           {| name := ""; validCases := [JBool true]; invalidCases := None;
              optional := false |} []).
  - reflexivity.
  - left. reflexivity.
Defined.

(** C6.  For every strategy, configuration sequence and negative index
    [n], [enumerateCases] with [n] is [enumerateCases] without an index. *)
Theorem enumerateCases_negative_is_absent :
  forall (World C : Type) (extend : AppendMethod World C)
         (configs : list ArgConfig) (n : Z) (w : World),
    n < 0 ->
    enumerateCases extend configs (Some n) w
    = enumerateCases extend configs None w.
Proof.
  intros World C extend configs n w Hn.
  unfold enumerateCases, reduce. cbv zeta.
  rewrite (index_negative configs Hn). cbn [truthy andb].
  apply reduceFrom_ext. intros acc conf j w0 Hj.
  cbn [strictEq isNumber isNegative negb orb].
  destruct (Z.eqb_spec j n) as [->|_]; [lia|].
  apply Z.ltb_lt in Hn. now rewrite Hn.
Qed.

Lemma enumerateCases_negative_is_absent_witness :
  enumerateCases (recorded positionalExtend) Scenario.configs3 (Some (-1)) []
  = enumerateCases (recorded positionalExtend) Scenario.configs3 None [].
Proof.
  apply (@enumerateCases_negative_is_absent _ _
           (recorded positionalExtend) Scenario.configs3 (-1) []).
  lia.
Defined.

(** C9.  For every strategy and every index (absent, negative or not),
    [enumerateCases] on the empty configuration sequence returns the
    empty case list and leaves the world as it was; in particular the
    record of an instrumented strategy stays empty and a strategy that
    throws at every invocation does not make the call throw. *)
Theorem enumerateCases_no_configs :
  (forall (World C : Type) (extend : AppendMethod World C)
          (idx : OptIndex) (w : World),
      enumerateCases extend [] idx w = (Normal [], w))
  /\ (forall (C : Type) (f : list C -> JsVal -> list C) (idx : OptIndex),
         snd (enumerateCases (recorded f) [] idx []) = [])
  /\ (forall (World C : Type) (e : JsVal) (idx : OptIndex) (w : World),
         fst (enumerateCases (@failing World C e) [] idx w) = Normal []).
Proof.
  assert (Hnil : forall (World C : Type) (extend : AppendMethod World C)
                        (idx : OptIndex) (w : World),
             enumerateCases extend [] idx w = (Normal [], w)).
  { intros World C extend [n|] w; [|reflexivity].
    unfold enumerateCases. cbv zeta.
    assert (H : index (@nil ArgConfig) n = None).
    { unfold index. destruct (n <? 0); [reflexivity|].
      now destruct (Z.to_nat n). }
    rewrite H. reflexivity. }
  split; [exact Hnil|]. split; intros.
  - now rewrite Hnil.
  - now rewrite Hnil.
Qed.

(** C8.  Scenario 3: with the positional strategy, the configurations
    [[{validCases:[true], invalidCases:[false, 0]},
      {validCases:[1, 2], invalidCases:[3]}]] and the index [0],
    [enumerateCases] returns [[[false, 1], [0, 1]]] in that order; the
    second argument of every case is [1] and [2] is in no case. *)
Theorem scenario_single_faulted_pinning :
  forall (World : Type) (w : World),
    exists result,
      enumerateCases (pureMethod positionalExtend) Scenario.configs3
        (Some 0) w
      = (Normal result, w)
      /\ result = [[JBool false; JNum 1]; [JNum 0; JNum 1]]
      /\ Forall (fun c => nth_error c 1 = Some (JNum 1)) result
      /\ Forall (fun c => ~ In (JNum 2) c) result.
Proof.
  intros World w. eexists. split; [reflexivity|]. split; [reflexivity|].
  split.
  - repeat constructor.
  - repeat constructor; cbn; intros H;
      repeat (destruct H as [H|H]; [discriminate|]); exact H.
Qed.

(** ** The record of an instrumented strategy *)

Section Recorded.

Variable C : Type.
Variable f : list C -> JsVal -> list C.

Lemma appends_ret (A : Type) (a : A) : appends (C := C) (ret a).
Proof. intros calls. exists a, []. unfold ret. now rewrite app_nil_r. Qed.

Lemma appends_bind (A B : Type) (m : Eff (list (Call C)) A)
  (k : A -> Eff (list (Call C)) B) :
  appends m -> (forall a, appends (k a)) -> appends (bind m k).
Proof.
  intros Hm Hk calls.
  destruct (Hm calls) as (a & new1 & Hrun).
  destruct (Hk a (calls ++ new1)) as (b & new2 & Hrun').
  exists b, (new1 ++ new2). unfold bind.
  now rewrite Hrun, Hrun', app_assoc.
Qed.

Lemma appends_recorded (cases : list C) (v : JsVal) :
  appends (recorded f cases v).
Proof. intros calls. now exists (f cases v), [(cases, v)]. Qed.

Lemma appends_reduceFrom (A B : Type)
  (callback : B -> A -> Z -> Eff (list (Call C)) B) :
  (forall acc x j, appends (callback acc x j)) ->
  forall arr i acc, appends (reduceFrom callback arr i acc).
Proof.
  intros Hcb. induction arr as [|x rest IH]; intros i acc; cbn [reduceFrom].
  - apply appends_ret.
  - apply appends_bind; [apply Hcb|]. intros acc'. apply IH.
Qed.

Lemma appends_appendArgCases (cases : list C) (candidates : list JsVal) :
  appends (appendArgCases (recorded f) cases candidates).
Proof.
  unfold appendArgCases, reduce. apply appends_reduceFrom.
  intros acc v _. apply appends_bind; [apply appends_recorded|].
  intros r. apply appends_ret.
Qed.

Lemma appends_faultedStep (k : Z) (invalid : list JsVal)
  (acc : list C) (j : Z) (conf : ArgConfig) :
  appends (faultedStep (recorded f) k invalid acc j conf).
Proof.
  unfold faultedStep. destruct (j =? k).
  - apply appends_appendArgCases.
  - apply appends_recorded.
Qed.

End Recorded.

(** C10.  In the single-faulted plan there is no emptiness check on the
    valid samples of the other slots.  For a slot other than the faulted
    one whose [validCases] is empty, the access [validCases[0]] is out of
    bounds and gives [undefined], and the plan does not return early.
    For every strategy the run is: the slots before the empty one are
    processed from the empty case list; the strategy is then invoked on
    the cases accumulated by these slots and the value [undefined]; the
    slots after it are processed from what that invocation returned.
    With an instrumented strategy [f] the run completes; its record is
    the record of the slots before, then the invocation on the
    accumulated cases and [undefined], then the record of the slots
    after, which start from [f accumulated undefined]; it is not the run
    of the early return. *)
Theorem enumerateCases_pins_undefined :
  forall (C : Type)
         (before after : list ArgConfig) (conf faulted : ArgConfig)
         (faultedIndex : Z) (invalid : list JsVal),
    index (before ++ conf :: after) faultedIndex = Some faulted ->
    invalidCases faulted = Some invalid ->
    invalid <> [] ->
    Z.of_nat (length before) <> faultedIndex ->
    validCases conf = [] ->
    index (validCases conf) 0 = None
    /\ elem (validCases conf) 0 = JUndefined
    /\ (forall (World : Type) (extend : AppendMethod World C) (w : World),
           enumerateCases extend (before ++ conf :: after)
             (Some faultedIndex) w
           = (accumulated <-
                reduceFrom
                  (fun acc c j =>
                     faultedStep extend faultedIndex invalid acc j c)
                  before 0 [] ;;
              extended <- extend accumulated JUndefined ;;
              reduceFrom
                (fun acc c j =>
                   faultedStep extend faultedIndex invalid acc j c)
                after (Z.of_nat (length before) + 1) extended) w)
    /\ (forall (f : list C -> JsVal -> list C),
           exists accumulated earlier later result,
             reduceFrom
               (fun acc c j =>
                  faultedStep (recorded f) faultedIndex invalid acc j c)
               before 0 [] []
             = (Normal accumulated, earlier)
             /\ reduceFrom
                  (fun acc c j =>
                     faultedStep (recorded f) faultedIndex invalid acc j c)
                  after (Z.of_nat (length before) + 1)
                  (f accumulated JUndefined)
                  (earlier ++ [(accumulated, JUndefined)])
                = (Normal result,
                   (earlier ++ [(accumulated, JUndefined)]) ++ later)
             /\ enumerateCases (recorded f) (before ++ conf :: after)
                  (Some faultedIndex) []
                = (Normal result,
                   earlier ++ (accumulated, JUndefined) :: later)
             /\ enumerateCases (recorded f) (before ++ conf :: after)
                  (Some faultedIndex) []
                <> (Normal [], [])).
Proof.
  intros C before after conf faulted k invalid Hidx Hinv Hne Hpos Hvalid.
  split; [now apply index_first|]. split; [now rewrite Hvalid|].
  split.
  - intros World extend w.
    now apply enumerateCases_faulted_split with (faulted := faulted).
  - intros f.
    assert (Hstep : forall acc x j,
               appends (faultedStep (recorded f) k invalid acc j x))
      by (intros; apply appends_faultedStep).
    destruct (appends_reduceFrom _ Hstep before 0 [] [])
      as (acc & earlier & Hrun1).
    destruct (appends_reduceFrom _ Hstep after
                (Z.of_nat (length before) + 1) (f acc JUndefined)
                (earlier ++ [(acc, JUndefined)]))
      as (result & later & Hrun2).
    cbn [app] in Hrun1.
    assert (Hrun :
              enumerateCases (recorded f) (before ++ conf :: after)
                (Some k) []
              = (Normal result, earlier ++ (acc, JUndefined) :: later)).
    { rewrite enumerateCases_faulted_split
        with (faulted := faulted) (invalid := invalid) by assumption.
      unfold bind. rewrite Hrun1. unfold recorded at 1.
      rewrite Hrun2. now rewrite <- app_assoc. }
    exists acc, earlier, later, result.
    split; [exact Hrun1|]. split; [exact Hrun2|]. split; [exact Hrun|].
    rewrite Hrun. intros Heq. injection Heq as _ Hcalls.
    destruct earlier; discriminate.
Qed.

Lemma enumerateCases_pins_undefined_witness :
  index (validCases (Scenario.conf [] [JNum 3] false)) 0 = None
  /\ enumerateCases (recorded positionalExtend) Scenario.configsNoValid
       (Some 0) []
     = (accumulated <-
          reduceFrom
            (fun acc c j =>
               faultedStep (recorded positionalExtend) 0
                 [JBool false; JNum 0] acc j c)
            [Scenario.conf [JBool true] [JBool false; JNum 0] false] 0 [] ;;
        extended <- recorded positionalExtend accumulated JUndefined ;;
        reduceFrom
          (fun acc c j =>
             faultedStep (recorded positionalExtend) 0
               [JBool false; JNum 0] acc j c)
          [] (1 + 1) extended) []
  /\ enumerateCases (recorded positionalExtend) Scenario.configsNoValid
       (Some 0) []
     <> (Normal [], []).
Proof.
  destruct (@enumerateCases_pins_undefined (list JsVal)
              [Scenario.conf [JBool true] [JBool false; JNum 0] false] []
              (Scenario.conf [] [JNum 3] false)
              (Scenario.conf [JBool true] [JBool false; JNum 0] false)
              0 [JBool false; JNum 0])
    as (Hbounds & _ & Hsplit & Hrecord).
  - reflexivity.
  - reflexivity.
  - discriminate.
  - simpl. lia.
  - reflexivity.
  - split; [exact Hbounds|]. split.
    + exact (Hsplit _ (recorded positionalExtend) []).
    + destruct (Hrecord positionalExtend)
        as (acc & earlier & later & result & _ & _ & _ & Hnot).
      exact Hnot.
Defined.

(** The run of the witness, in full: both cases carry [undefined] as
    their second argument. *)
Example enumerateCases_no_valid_sample_run :
  enumerateCases (recorded positionalExtend) Scenario.configsNoValid
    (Some 0) []
  = (Normal [[JBool false; JUndefined]; [JNum 0; JUndefined]],
     [([], JBool false); ([], JNum 0);
      ([[JBool false]; [JNum 0]], JUndefined)]).
Proof. reflexivity. Qed.

(** Scenario 1, and the all-valid plan on the configurations of
    scenario 3. *)
Example scenario_all_valid_run :
  enumerateCases (recorded positionalExtend) Scenario.configs1 None []
  = (Normal [[JBool true; JNum 1]],
     [([], JBool true); ([[JBool true]], JNum 1)])
  /\ fst (enumerateCases (recorded positionalExtend) Scenario.configs3
            None [])
     = Normal [[JBool true; JNum 1]; [JBool true; JNum 2]].
Proof. split; reflexivity. Qed.

(** * Further properties of the engine *)

(** ** [appendArgCases]: composition, invocations, exceptions *)

(** The invocations of an instrumented strategy on a list of candidates:
    one per candidate, in order, each on the same case list. *)
Lemma extendEach_recorded (C : Type) (f : list C -> JsVal -> list C)
  (cases : list C) (candidates : list JsVal) :
  forall calls,
    extendEach (recorded f) cases candidates calls
    = (Normal (map (f cases) candidates),
       calls ++ map (fun v => (cases, v)) candidates).
Proof.
  induction candidates as [|v rest IH]; intros calls.
  - cbn. unfold ret. now rewrite app_nil_r.
  - cbn [extendEach map]. unfold bind. unfold recorded at 1.
    rewrite IH. cbn [ret]. now rewrite <- app_assoc.
Qed.

Lemma appendArgCases_recorded_run (C : Type) (f : list C -> JsVal -> list C)
  (cases : list C) (candidates : list JsVal) (calls : list (Call C)) :
  appendArgCases (recorded f) cases candidates calls
  = (Normal (concat (map (f cases) candidates)),
     calls ++ map (fun v => (cases, v)) candidates).
Proof.
  rewrite appendArgCases_unfold. unfold concatOfExtensions, bind.
  now rewrite extendEach_recorded.
Qed.

(** X1.  Expanding with the candidates [l1 ++ l2] is expanding with [l1],
    then with [l2], both on the same [cases], and concatenating the two
    results; the invocations of the strategy happen in that order. *)
Theorem appendArgCases_app :
  forall (World C : Type) (extend : AppendMethod World C)
         (cases : list C) (l1 l2 : list JsVal) (w : World),
    appendArgCases extend cases (l1 ++ l2) w
    = (r1 <- appendArgCases extend cases l1 ;;
       r2 <- appendArgCases extend cases l2 ;;
       ret (r1 ++ r2)) w.
Proof.
  intros World C extend cases l1 l2 w.
  unfold appendArgCases, reduce. rewrite reduceFrom_app.
  match goal with |- context [reduceFrom ?f l1 _ _] => set (cb := f) end.
  unfold bind.
  destruct (reduceFrom cb l1 0 [] w) as [[r1|e] w1]; [|reflexivity].
  subst cb. rewrite !appendArgCases_reduce. unfold bind.
  destruct (extendEach extend cases l2 w1) as [[rs|e] w2]; reflexivity.
Qed.

(** X2.  The strategy is invoked once per candidate, in the order of the
    candidates, and every time on the case list [cases] that
    [appendArgCases] received (never on the cases appended so far). *)
Theorem appendArgCases_invocations :
  forall (C : Type) (f : list C -> JsVal -> list C)
         (cases : list C) (candidates : list JsVal) (calls : list (Call C)),
    snd (appendArgCases (recorded f) cases candidates calls)
    = calls ++ map (fun v => (cases, v)) candidates.
Proof.
  intros. now rewrite appendArgCases_recorded_run.
Qed.

(** X3.  An exception of the strategy is not caught: when the strategy
    throws on a candidate after the candidates before it were processed,
    [appendArgCases] throws the same value, and the world is the one the
    throwing invocation left, so the candidates after it are not tried. *)
Theorem appendArgCases_throws :
  forall (World C : Type) (extend : AppendMethod World C)
         (cases : list C) (done : list JsVal) (v : JsVal)
         (rest : list JsVal) (w w1 w2 : World) (r : list C) (e : JsVal),
    appendArgCases extend cases done w = (Normal r, w1) ->
    extend cases v w1 = (Abrupt e, w2) ->
    appendArgCases extend cases (done ++ v :: rest) w = (Abrupt e, w2).
Proof.
  intros World C extend cases done v rest w w1 w2 r e Hdone Hthrow.
  unfold appendArgCases, reduce in *. rewrite reduceFrom_app.
  unfold bind at 1. rewrite Hdone. cbn [reduceFrom]. unfold bind.
  now rewrite Hthrow.
Qed.

(** A strategy that throws on the value [null] and otherwise behaves as
    the recorded positional strategy. *)
Lemma appendArgCases_throws_witness :
  appendArgCases
    (fun cases v calls =>
       match v with
       | JNull => (Abrupt (JStr "no null"), calls)
       | _ => recorded positionalExtend cases v calls
       end)
    [] ([JNum 1] ++ JNull :: [JNum 2]) []
  = (Abrupt (JStr "no null"), [([], JNum 1)]).
Proof.
  eapply (@appendArgCases_throws _ _ _ [] [JNum 1] JNull [JNum 2]).
  - reflexivity.
  - reflexivity.
Defined.

(** X4.  For a strategy without effects, the result has as many cases as
    the strategy returns over all candidates together, and a case is in
    the result exactly when the strategy returns it for some candidate. *)
Theorem appendArgCases_pure_cases :
  forall (World C : Type) (f : list C -> JsVal -> list C)
         (cases : list C) (candidates : list JsVal) (w : World),
    exists result,
      appendArgCases (pureMethod f) cases candidates w = (Normal result, w)
      /\ length result
         = list_sum (map (fun v => length (f cases v)) candidates)
      /\ (forall c, In c result
                    <-> exists v, In v candidates /\ In c (f cases v)).
Proof.
  intros World C f cases candidates w.
  exists (concat (map (f cases) candidates)).
  split; [apply appendArgCases_pure|]. split.
  - induction candidates as [|v rest IH]; [reflexivity|].
    cbn [map concat list_sum]. now rewrite length_app, IH.
  - intros c. rewrite in_concat. split.
    + intros (l & Hl & Hc). apply in_map_iff in Hl.
      destruct Hl as (v & <- & Hv). now exists v.
    + intros (v & Hv & Hc). exists (f cases v). split; [|exact Hc].
      now apply in_map.
Qed.

(** ** [enumerateCases]: how the plans compose *)

Lemma foldM_app (World A B : Type) (step : B -> A -> Eff World B)
  (l1 l2 : list A) :
  forall acc w,
    foldM step (l1 ++ l2) acc w
    = (acc' <- foldM step l1 acc ;; foldM step l2 acc') w.
Proof.
  induction l1 as [|x rest IH]; intros acc w; [reflexivity|].
  cbn [app foldM]. unfold bind.
  destruct (step acc x w) as [[acc'|e] w']; [|reflexivity].
  rewrite IH. reflexivity.
Qed.

(** Without an index, the reduction of [enumerateCases] expands every
    slot with its valid samples. *)
Lemma enumerateCases_absent_fold (World C : Type)
  (extend : AppendMethod World C) (configs : list ArgConfig) (w : World) :
  enumerateCases extend configs None w
  = foldM (fun acc conf => appendArgCases extend acc (validCases conf))
      configs [] w.
Proof.
  unfold enumerateCases, reduce. cbv zeta.
  cbn [truthy andb strictEq isNumber isNegative negb orb].
  apply reduceFrom_foldM.
Qed.

Lemma index_app_l (A : Type) (l l' : list A) (n : Z) (x : A) :
  index l n = Some x -> index (l ++ l') n = Some x.
Proof.
  unfold index. destruct (n <? 0); [discriminate|]. intros H.
  rewrite nth_error_app1; [exact H|].
  apply nth_error_Some. congruence.
Qed.

(** X5.  In the all-valid plan a slot without valid samples empties the
    accumulated cases: the configurations after that slot are processed
    from the empty case list, as if they were the whole sequence.  The
    configurations before it only leave their effects (and exceptions);
    their cases are not part of the result. *)
Theorem enumerateCases_empty_slot_restarts :
  forall (World C : Type) (extend : AppendMethod World C)
         (before after : list ArgConfig) (conf : ArgConfig) (w : World),
    validCases conf = [] ->
    enumerateCases extend (before ++ conf :: after) None w
    = (_ <- enumerateCases extend before None ;;
       enumerateCases extend after None) w.
Proof.
  intros World C extend before after conf w Hvalid.
  rewrite enumerateCases_absent_fold, foldM_app. unfold bind.
  rewrite (enumerateCases_absent_fold extend before w).
  destruct (foldM _ before [] w) as [[acc|e] w1]; [|reflexivity].
  cbn [foldM]. unfold bind. rewrite Hvalid.
  cbn [appendArgCases reduce reduceFrom ret].
  now rewrite enumerateCases_absent_fold.
Qed.

Lemma enumerateCases_empty_slot_restarts_witness :
  enumerateCases (recorded positionalExtend)
    ([Scenario.conf [JBool true] [JBool false] false]
       ++ Scenario.conf [] [JNum 3] false
       :: [Scenario.conf [JNum 1; JNum 2] [JNum 3] false])
    None []
  = (Normal [[JNum 1]; [JNum 2]],
     [([], JBool true); ([], JNum 1); ([], JNum 2)]).
Proof.
  rewrite (@enumerateCases_empty_slot_restarts _ _
             (recorded positionalExtend)
             [Scenario.conf [JBool true] [JBool false] false]
             [Scenario.conf [JNum 1; JNum 2] [JNum 3] false]
             (Scenario.conf [] [JNum 3] false) []).
  - reflexivity.
  - reflexivity.
Defined.

(** X6.  All-valid plan, one more argument at the end: the cases of the
    longer sequence are the cases of the shorter one expanded with the
    valid samples of the new argument. *)
Theorem enumerateCases_all_valid_snoc :
  forall (World C : Type) (extend : AppendMethod World C)
         (configs : list ArgConfig) (conf : ArgConfig) (w : World),
    enumerateCases extend (configs ++ [conf]) None w
    = (acc <- enumerateCases extend configs None ;;
       appendArgCases extend acc (validCases conf)) w.
Proof.
  intros World C extend configs conf w.
  rewrite enumerateCases_absent_fold, foldM_app. unfold bind.
  rewrite (enumerateCases_absent_fold extend configs w).
  destruct (foldM _ configs [] w) as [[acc|e] w1]; [|reflexivity].
  cbn [foldM]. unfold bind.
  destruct (appendArgCases extend acc (validCases conf) w1)
    as [[r|e] w2]; reflexivity.
Qed.

(** X7.  Single-faulted plan, one more argument at the end: when the
    index resolves (in the shorter sequence) to a configuration with
    invalid samples, the cases of the longer sequence are the cases of
    the shorter one, each extended by one invocation of the strategy with
    the first valid sample of the new argument. *)
Theorem enumerateCases_single_faulted_snoc :
  forall (World C : Type) (extend : AppendMethod World C)
         (configs : list ArgConfig) (conf faulted : ArgConfig)
         (k : Z) (invalid : list JsVal) (w : World),
    index configs k = Some faulted ->
    invalidCases faulted = Some invalid ->
    invalid <> [] ->
    enumerateCases extend (configs ++ [conf]) (Some k) w
    = (acc <- enumerateCases extend configs (Some k) ;;
       extend acc (elem (validCases conf) 0)) w.
Proof.
  intros World C extend configs conf faulted k invalid w Hidx Hinv Hne.
  rewrite enumerateCases_faulted_reduce
    with (faulted := faulted) (invalid := invalid);
    [|now apply index_app_l|assumption|assumption].
  rewrite reduceFrom_app. unfold bind.
  rewrite enumerateCases_faulted_reduce
    with (faulted := faulted) (invalid := invalid) by assumption.
  destruct (reduceFrom _ configs 0 [] w) as [[acc|e] w1]; [|reflexivity].
  cbn [reduceFrom]. unfold bind, faultedStep.
  apply index_in_range in Hidx.
  destruct (Z.eqb_spec (0 + Z.of_nat (length configs)) k) as [E|_]; [lia|].
  destruct (extend acc (elem (validCases conf) 0) w1) as [[r|e] w2];
    reflexivity.
Qed.

Lemma enumerateCases_single_faulted_snoc_witness :
  enumerateCases (recorded positionalExtend)
    ([Scenario.conf [JBool true] [JBool false; JNum 0] false]
       ++ [Scenario.conf [JNum 1; JNum 2] [JNum 3] false])
    (Some 0) []
  = (acc <- enumerateCases (recorded positionalExtend)
              [Scenario.conf [JBool true] [JBool false; JNum 0] false]
              (Some 0) ;;
     recorded positionalExtend acc (JNum 1)) [].
Proof.
  apply (@enumerateCases_single_faulted_snoc _ _
           (recorded positionalExtend)
           [Scenario.conf [JBool true] [JBool false; JNum 0] false]
           (Scenario.conf [JNum 1; JNum 2] [JNum 3] false)
           (Scenario.conf [JBool true] [JBool false; JNum 0] false)
           0 [JBool false; JNum 0] []).
  - reflexivity.
  - reflexivity.
  - discriminate.
Defined.

(** ** [enumerateCases]: the number of cases *)

Lemma returns_bind (World A B : Type) (m : Eff World A)
  (k : A -> Eff World B) (w : World) (P : A -> Prop) (Q : B -> Prop) :
  returns m w P ->
  (forall a w', P a -> returns (k a) w' Q) ->
  returns (bind m k) w Q.
Proof.
  intros (a & w' & Hrun & Ha) Hk.
  destruct (Hk a w' Ha) as (b & w'' & Hrun' & Hb).
  exists b, w''. split; [|exact Hb]. unfold bind. now rewrite Hrun.
Qed.

Lemma returns_weaken (World A : Type) (m : Eff World A) (w : World)
  (P Q : A -> Prop) :
  returns m w P -> (forall a, P a -> Q a) -> returns m w Q.
Proof.
  intros (a & w' & Hrun & Ha) HPQ. exists a, w'. auto.
Qed.

Section Counting.

Variable World : Type.
Variable C : Type.
Variable extend : AppendMethod World C.
Hypothesis Hcount : keepsCount extend.

(** One invocation: one case from the empty list, else as many as before. *)
Lemma keepsCount_extend (cases : list C) (v : JsVal) (w : World) :
  returns (extend cases v) w
    (fun r => length r = Nat.max 1 (length cases)).
Proof.
  destruct Hcount as [Hempty Hcases]. destruct cases as [|c cases'].
  - apply Hempty.
  - eapply returns_weaken; [apply Hcases; discriminate|].
    intros r ->. cbn [length]. lia.
Qed.

Lemma keepsCount_appendArgCases (cases : list C) (candidates : list JsVal)
  (w : World) :
  returns (appendArgCases extend cases candidates) w
    (fun r => length r
              = (Nat.max 1 (length cases) * length candidates)%nat).
Proof.
  unfold appendArgCases, reduce.
  eapply returns_weaken.
  - apply appendArgCases_reduce_length
      with (n := Nat.max 1 (length cases)).
    intros v w0. apply keepsCount_extend.
  - intros r ->. reflexivity.
Qed.

(** The all-valid fold from a non-empty case list, over slots that all
    have valid samples: the count is multiplied at every slot. *)
Lemma keepsCount_all_valid_fold (configs : list ArgConfig) :
  Forall (fun conf => validCases conf <> []) configs ->
  forall acc w,
    acc <> [] ->
    returns
      (foldM (fun acc conf => appendArgCases extend acc (validCases conf))
         configs acc)
      w
      (fun r => length r
                = (length acc
                   * product (map (fun conf => length (validCases conf))
                                configs))%nat).
Proof.
  induction 1 as [|conf rest Hconf Hrest IH]; intros acc w Hacc.
  - exists acc, w. split; [reflexivity|]. cbn. lia.
  - cbn [foldM]. eapply returns_bind.
    + apply keepsCount_appendArgCases.
    + intros r w' Hr.
      assert (Hlen : length r
                     = (length acc * length (validCases conf))%nat).
      { rewrite Hr. destruct acc; [congruence|]. cbn [length]. lia. }
      assert (Hne : r <> []).
      { intros ->. cbn [length] in Hlen.
        destruct acc; [congruence|].
        destruct (validCases conf); [congruence|]. cbn [length] in Hlen.
        lia. }
      eapply returns_weaken; [apply IH; exact Hne|].
      intros r' ->. rewrite Hlen. cbn [map product fold_right].
      fold (product (map (fun conf => length (validCases conf)) rest)).
      lia.
Qed.

(** The single-faulted reduction past the faulted slot: every slot is
    pinned, and the count stays. *)
Lemma keepsCount_after_faulted (k : Z) (invalid : list JsVal)
  (configs : list ArgConfig) :
  forall i acc w,
    k < i ->
    acc <> [] ->
    returns
      (reduceFrom (fun acc conf j => faultedStep extend k invalid acc j conf)
         configs i acc)
      w (fun r => length r = length acc).
Proof.
  induction configs as [|conf rest IH]; intros i acc w Hi Hacc.
  - exists acc, w. now split.
  - cbn [reduceFrom]. eapply returns_bind.
    + unfold faultedStep.
      destruct (Z.eqb_spec i k) as [E|_]; [lia|]. apply keepsCount_extend.
    + intros r w' Hr.
      assert (Hlen : length r = length acc)
        by (rewrite Hr; destruct acc; [congruence|cbn [length]; lia]).
      eapply returns_weaken.
      * apply IH; [lia|]. intros ->. destruct acc; [congruence|].
        discriminate.
      * intros r' ->. exact Hlen.
Qed.

(** The single-faulted reduction up to the faulted slot: at most one case
    is accumulated before it, and the faulted slot gives one per invalid
    sample. *)
Lemma keepsCount_to_faulted (k : Z) (invalid : list JsVal)
  (configs : list ArgConfig) :
  invalid <> [] ->
  forall i acc w,
    i <= k < i + Z.of_nat (length configs) ->
    (length acc <= 1)%nat ->
    returns
      (reduceFrom (fun acc conf j => faultedStep extend k invalid acc j conf)
         configs i acc)
      w (fun r => length r = length invalid).
Proof.
  intros Hne. induction configs as [|conf rest IH]; intros i acc w Hi Hacc.
  - cbn [length] in Hi. lia.
  - assert (Hstep :
              returns (faultedStep extend k invalid acc i conf) w
                (fun r =>
                   length r
                   = if i =? k
                     then (Nat.max 1 (length acc) * length invalid)%nat
                     else Nat.max 1 (length acc))).
    { unfold faultedStep. destruct (i =? k).
      - apply keepsCount_appendArgCases.
      - apply keepsCount_extend. }
    cbn [reduceFrom]. eapply returns_bind; [exact Hstep|].
    intros r w' Hr. cbn beta in Hr.
    destruct (Z.eqb_spec i k) as [E|E].
    +
 assert (Hlen : length r = length invalid)
        by (rewrite Hr; destruct acc as [|c [|c' acc']];
            cbn [length] in *; lia).
      eapply returns_weaken.
      * apply keepsCount_after_faulted; [lia|].
        intros ->. destruct invalid; [congruence|discriminate].
      * intros r' ->. exact Hlen.
    + apply IH; [cbn [length] in Hi; lia|]. rewrite Hr.
      destruct acc as [|c [|c' acc']]; cbn [length] in *; lia.
Qed.

End Counting.

Lemma positionalExtend_keepsCount (World : Type) :
  keepsCount (World := World) (pureMethod positionalExtend).
Proof.
  split.
  - intros v w. exists [[v]], w. now split.
  - intros cases v w Hne. exists (positionalExtend cases v), w.
    split; [reflexivity|]. destruct cases; [congruence|].
    unfold positionalExtend. apply length_map.
Qed.

(** X8.  For a strategy that keeps the count of the cases, the all-valid
    plan over a non-empty sequence in which every argument has a valid
    sample returns as many cases as the product of the numbers of valid
    samples. *)
Theorem enumerateCases_all_valid_count :
  forall (World C : Type) (extend : AppendMethod World C)
         (configs : list ArgConfig) (w : World),
    keepsCount extend ->
    configs <> [] ->
    Forall (fun conf => validCases conf <> []) configs ->
    returns (enumerateCases extend configs None) w
      (fun r => length r
                = product (map (fun conf => length (validCases conf))
                             configs)).
Proof.
  intros World C extend configs w Hcount Hne Hall.
  destruct configs as [|conf rest]; [congruence|].
  inversion Hall as [|? ? Hconf Hrest]; subst.
  destruct (@keepsCount_appendArgCases World C extend Hcount []
              (validCases conf) w)
    as (r & w1 & Hrun & Hr).
  cbn [length Nat.max] in Hr.
  assert (Hr' : r <> []).
  { intros ->. destruct (validCases conf); [congruence|].
    cbn [length] in Hr. lia. }
  destruct (@keepsCount_all_valid_fold World C extend Hcount rest Hrest
              r w1 Hr')
    as (r' & w2 & Hrun' & Hlen).
  exists r', w2. split.
  - rewrite enumerateCases_absent_fold. cbn [foldM]. unfold bind.
    now rewrite Hrun.
  - rewrite Hlen, Hr. cbn [map product fold_right]. unfold product. lia.
Qed.

Lemma enumerateCases_all_valid_count_witness :
  returns
    (enumerateCases (World := unit) (pureMethod positionalExtend)
       Scenario.configs3 None)
    tt (fun r => length r = 2%nat).
Proof.
  apply (@enumerateCases_all_valid_count unit _
           (pureMethod positionalExtend) Scenario.configs3 tt).
  - apply positionalExtend_keepsCount.
  - discriminate.
  - repeat constructor; discriminate.
Defined.

(** X9.  For a strategy that keeps the count of the cases, the
    single-faulted plan returns one case per invalid sample of the
    faulted argument, whatever the number of arguments and of their valid
    samples. *)
Theorem enumerateCases_single_faulted_count :
  forall (World C : Type) (extend : AppendMethod World C)
         (configs : list ArgConfig) (k : Z) (faulted : ArgConfig)
         (invalid : list JsVal) (w : World),
    keepsCount extend ->
    index configs k = Some faulted ->
    invalidCases faulted = Some invalid ->
    invalid <> [] ->
    returns (enumerateCases extend configs (Some k)) w
      (fun r => length r = length invalid).
Proof.
  intros World C extend configs k faulted invalid w Hcount Hidx Hinv Hne.
  assert (Hrange : 0 <= k < 0 + Z.of_nat (length configs))
    by (apply index_in_range in Hidx; lia).
  destruct (@keepsCount_to_faulted World C extend Hcount k invalid configs
              Hne 0 [] w Hrange (Nat.le_0_l 1))
    as (r & w' & Hrun & Hr).
  exists r, w'. split; [|exact Hr].
  rewrite enumerateCases_faulted_reduce
    with (faulted := faulted) (invalid := invalid) by assumption.
  exact Hrun.
Qed.

Lemma enumerateCases_single_faulted_count_witness :
  returns
    (enumerateCases (World := unit) (pureMethod positionalExtend)
       Scenario.configs3 (Some 0))
    tt (fun r => length r = 2%nat).
Proof.
  apply (@enumerateCases_single_faulted_count unit _
           (pureMethod positionalExtend) Scenario.configs3 0
           (Scenario.conf [JBool true] [JBool false; JNum 0] false)
           [JBool false; JNum 0] tt).
  - apply positionalExtend_keepsCount.
  - reflexivity.
  - reflexivity.
  - discriminate.
Defined.

(** ** [enumerateCases]: exceptions come from the strategy *)

Lemma index_none_range (A : Type) (arr : list A) (n : Z) :
  index arr n = None -> n < 0 \/ Z.of_nat (length arr) <= n.
Proof.
  unfold index. destruct (n <? 0) eqn:E.
  - left. now apply Z.ltb_lt.
  - intros H. right. apply nth_error_None in H.
    apply Z.ltb_ge in E. lia.
Qed.

Lemma reduceFrom_normal (World A B : Type)
  (callback : B -> A -> Z -> Eff World B) (arr : list A) :
  forall i,
    (forall acc x j w,
        i <= j < i + Z.of_nat (length arr) ->
        exists r w', callback acc x j w = (Normal r, w')) ->
    forall acc w, exists r w', reduceFrom callback arr i acc w = (Normal r, w').
Proof.
  induction arr as [|x rest IH]; intros i Hcb acc w.
  - now exists acc, w.
  - assert (Hlen : Z.of_nat (length (x :: rest))
                   = 1 + Z.of_nat (length rest))
      by (simpl length; lia).
    destruct (Hcb acc x i w) as (acc' & w' & Hrun); [lia|].
    cbn [reduceFrom]. unfold bind. rewrite Hrun.
    apply IH. intros; apply Hcb; lia.
Qed.

Lemma appendArgCases_normal (World C : Type) (extend : AppendMethod World C) :
  neverThrows extend ->
  forall cases candidates w,
    exists r w', appendArgCases extend cases candidates w = (Normal r, w').
Proof.
  intros Hnever cases candidates w. unfold appendArgCases, reduce.
  apply reduceFrom_normal. intros acc v j w0 _.
  destruct (Hnever cases v w0) as (r & w' & Hrun).
  exists (acc ++ r), w'. unfold bind. now rewrite Hrun.
Qed.

(** X10.  The engine throws nothing of its own: with a strategy that
    never throws, [enumerateCases] completes normally for every
    configuration sequence and every index, present or absent, in or out
    of range (the call of [multiAppend] on a missing [invalidCases] is
    never reached). *)
Theorem enumerateCases_never_throws :
  forall (World C : Type) (extend : AppendMethod World C),
    neverThrows extend ->
    forall (configs : list ArgConfig) (idx : OptIndex) (w : World),
      exists r w', enumerateCases extend configs idx w = (Normal r, w').
Proof.
  intros World C extend Hnever configs idx w.
  pose proof (appendArgCases_normal Hnever) as Happend.
  unfold enumerateCases, reduce. cbv zeta.
  destruct idx as [n|].
  - destruct (index configs n) as [conf|] eqn:Hidx; cbn [truthy andb].
    + destruct (invalidCases conf) as [[|v invalid]|];
        cbn [missingOrEmpty length Nat.eqb];
        try (now exists [], w).
      apply reduceFrom_normal. intros acc x j w0 _.
      destruct (strictEq j (Some n)); [apply Happend|].
      destruct (negb (isNumber (Some n)) || isNegative (Some n));
        [apply Happend|apply Hnever].
    + apply reduceFrom_normal. intros acc x j w0 Hj.
      cbn [strictEq]. destruct (Z.eqb_spec j n) as [->|_].
      * apply index_none_range in Hidx. lia.
      * destruct (negb (isNumber (Some n)) || isNegative (Some n));
          [apply Happend|apply Hnever].
  - cbn [truthy andb strictEq isNumber isNegative negb orb].
    apply reduceFrom_normal. intros acc x j w0 _. apply Happend.
Qed.

Lemma enumerateCases_never_throws_witness :
  exists r w',
    enumerateCases (recorded positionalExtend) Scenario.configsNoValid
      (Some 5) []
    = (Normal r, w').
Proof.
  apply (@enumerateCases_never_throws _ _ (recorded positionalExtend)).
  intros cases v calls. now exists (positionalExtend cases v),
                                  (calls ++ [(cases, v)]).
Defined.

(** ** [enumerateCases]: what the strategy is given *)

Lemma map_snd_pair (A B : Type) (a : A) (l : list B) :
  map snd (map (fun b => (a, b)) l) = l.
Proof.
  induction l as [|b rest IH]; [reflexivity|]. cbn [map snd]. now rewrite IH.
Qed.

(** The all-valid fold with an instrumented strategy: the values of the
    new invocations are the valid samples, slot by slot. *)
Lemma all_valid_fold_values (C : Type) (f : list C -> JsVal -> list C)
  (configs : list ArgConfig) :
  forall acc calls,
    exists r new,
      foldM (fun acc conf =>
               appendArgCases (recorded f) acc (validCases conf))
        configs acc calls
      = (Normal r, calls ++ new)
      /\ map snd new = concat (map validCases configs).
Proof.
  induction configs as [|conf rest IH]; intros acc calls.
  - exists acc, []. split; [|reflexivity]. cbn. unfold ret.
    now rewrite app_nil_r.
  - cbn [foldM]. unfold bind. rewrite appendArgCases_recorded_run.
    destruct (IH (concat (map (f acc) (validCases conf)))
                (calls ++ map (fun v => (acc, v)) (validCases conf)))
      as (r & new & Hrun & Hnew).
    exists r, (map (fun v => (acc, v)) (validCases conf) ++ new). split.
    + rewrite Hrun. now rewrite <- app_assoc.
    + rewrite map_app, map_snd_pair, Hnew. reflexivity.
Qed.

(** The single-faulted reduction with an instrumented strategy: the
    values of the new invocations are the invalid samples at the faulted
    position and the first valid sample at every other one. *)
Lemma single_faulted_values (C : Type) (f : list C -> JsVal -> list C)
  (k : Z) (invalid : list JsVal) (configs : list ArgConfig) :
  forall n acc calls,
    exists r new,
      reduceFrom
        (fun acc conf j => faultedStep (recorded f) k invalid acc j conf)
        configs (Z.of_nat n) acc calls
      = (Normal r, calls ++ new)
      /\ map snd new
         = concat
             (map (fun '(j, conf) =>
                     if j =? k then invalid else [elem (validCases conf) 0])
                (combine (map Z.of_nat (seq n (length configs))) configs)).
Proof.
  induction configs as [|conf rest IH]; intros n acc calls.
  - exists acc, []. split; [|reflexivity]. cbn. unfold ret.
    now rewrite app_nil_r.
  - cbn [reduceFrom length seq map combine concat]. unfold bind.
    replace (Z.of_nat n + 1) with (Z.of_nat (S n)) by lia.
    unfold faultedStep at 1. destruct (Z.of_nat n =? k).
    + rewrite appendArgCases_recorded_run.
      destruct (IH (S n) (concat (map (f acc) invalid))
                  (calls ++ map (fun v => (acc, v)) invalid))
        as (r & new & Hrun & Hnew).
      exists r, (map (fun v => (acc, v)) invalid ++ new). split.
      * rewrite Hrun. now rewrite <- app_assoc.
      * rewrite map_app, map_snd_pair, Hnew. reflexivity.
    + unfold recorded at 1.
      destruct (IH (S n) (f acc (elem (validCases conf) 0))
                  (calls ++ [(acc, elem (validCases conf) 0)]))
        as (r & new & Hrun & Hnew).
      exists r, ((acc, elem (validCases conf) 0) :: new). split.
      * rewrite Hrun. now rewrite <- app_assoc.
      * cbn [map snd app]. now rewrite Hnew.
Qed.

(** X12.  In the all-valid plan the strategy is given every valid sample
    of every argument, once each, argument by argument and in the order
    of the samples. *)
Theorem enumerateCases_all_valid_values :
  forall (C : Type) (f : list C -> JsVal -> list C)
         (configs : list ArgConfig),
    map snd (snd (enumerateCases (recorded f) configs None []))
    = concat (map validCases configs).
Proof.
  intros C f configs. rewrite enumerateCases_absent_fold.
  destruct (all_valid_fold_values f configs [] [])
    as (r & new & Hrun & Hnew).
  rewrite Hrun. exact Hnew.
Qed.

(** X13.  In the single-faulted plan the strategy is given, argument by
    argument, the invalid samples of the faulted argument, in order, and
    one value for each other argument: its first valid sample
    ([undefined] for want of one).  No other valid sample and no invalid
    sample of another argument reaches the strategy. *)
Theorem enumerateCases_single_faulted_values :
  forall (C : Type) (f : list C -> JsVal -> list C)
         (configs : list ArgConfig) (k : Z) (faulted : ArgConfig)
         (invalid : list JsVal),
    index configs k = Some faulted ->
    invalidCases faulted = Some invalid ->
    invalid <> [] ->
    map snd (snd (enumerateCases (recorded f) configs (Some k) []))
    = concat
        (map (fun '(j, conf) =>
                if j =? k then invalid else [elem (validCases conf) 0])
           (withPositions configs)).
Proof.
  intros C f configs k faulted invalid Hidx Hinv Hne.
  rewrite enumerateCases_faulted_reduce
    with (faulted := faulted) (invalid := invalid) by assumption.
  destruct (single_faulted_values f k invalid configs 0 [] [])
    as (r & new & Hrun & Hnew).
  change (Z.of_nat 0) with 0 in Hrun. rewrite Hrun. exact Hnew.
Qed.

Lemma enumerateCases_single_faulted_values_witness :
  map snd
    (snd (enumerateCases (recorded positionalExtend) Scenario.configs3
            (Some 1) []))
  = [JBool true; JNum 3].
Proof.
  apply (@enumerateCases_single_faulted_values _ positionalExtend
           Scenario.configs3 1
           (Scenario.conf [JNum 1; JNum 2] [JNum 3] false) [JNum 3]).
  - reflexivity.
  - reflexivity.
  - discriminate.
Defined.

(** ** [enumerateCases]: what of a configuration is read *)

Lemma index_Forall2 (A : Type) (R : A -> A -> Prop) (l l' : list A) :
  Forall2 R l l' ->
  forall n,
    match index l n, index l' n with
    | Some x, Some x' => R x x'
    | None, None => True
    | _, _ => False
    end.
Proof.
  intros HR n. unfold index. destruct (n <? 0); [exact I|].
  generalize (Z.to_nat n). clear n.
  induction HR as [|x x' rest rest' Hx Hrest IH]; intros [|m]; cbn;
    try exact I; [exact Hx|apply IH].
Qed.

Lemma reduceFrom_Forall2 (World A B : Type) (R : A -> A -> Prop)
  (f g : B -> A -> Z -> Eff World B) (arr arr' : list A) :
  Forall2 R arr arr' ->
  (forall acc x x' j w, R x x' -> f acc x j w = g acc x' j w) ->
  forall i acc w, reduceFrom f arr i acc w = reduceFrom g arr' i acc w.
Proof.
  intros HR Hfg.
  induction HR as [|x x' rest rest' Hx Hrest IH]; intros i acc w;
    [reflexivity|].
  cbn [reduceFrom]. unfold bind. rewrite (Hfg acc x x' i w Hx).
  destruct (g acc x' i w) as [[acc'|e] w']; [apply IH|reflexivity].
Qed.

(** X14.  Of a configuration the engine reads [validCases] and
    [invalidCases] only: two sequences that agree on these two
    attributes, position by position, give the same run for every
    strategy and every index, whatever their [name] and [optional]
    attributes (which do not reach the strategy either: it receives the
    cases and one sample). *)
Theorem enumerateCases_reads_samples_only :
  forall (World C : Type) (extend : AppendMethod World C)
         (configs configs' : list ArgConfig) (idx : OptIndex) (w : World),
    Forall2
      (fun conf conf' =>
         validCases conf = validCases conf'
         /\ invalidCases conf = invalidCases conf')
      configs configs' ->
    enumerateCases extend configs idx w
    = enumerateCases extend configs' idx w.
Proof.
  intros World C extend configs configs' idx w Hsame.
  unfold enumerateCases, reduce. cbv zeta.
  assert (Hinv :
            match idx with Some n => index configs n | None => None end
            = None
            /\ match idx with Some n => index configs' n | None => None end
               = None
            \/ exists conf conf',
                match idx with Some n => index configs n | None => None end
                = Some conf
                /\ match idx with Some n => index configs' n | None => None end
                   = Some conf'
                /\ invalidCases conf = invalidCases conf').
  { destruct idx as [n|]; [|now left].
    pose proof (index_Forall2 Hsame n) as Hn.
    destruct (index configs n) as [conf|], (index configs' n) as [conf'|];
      try contradiction.
    - right. exists conf, conf'. now destruct Hn.
    - now left. }
  destruct Hinv as [[-> ->] | (conf & conf' & -> & -> & ->)].
  - cbn [truthy andb].
    eapply reduceFrom_Forall2; [exact Hsame|].
    intros acc x x' j w0 [Hvalid _]. cbv beta. now rewrite Hvalid.
  - cbn [truthy andb].
    destruct (missingOrEmpty (invalidCases conf')); [reflexivity|].
    eapply reduceFrom_Forall2; [exact Hsame|].
    intros acc x x' j w0 [Hvalid _]. cbv beta. now rewrite Hvalid.
Qed.

Lemma enumerateCases_reads_samples_only_witness :
  enumerateCases (recorded positionalExtend)
    [ {| name := "a"; validCases := [JBool true];
         invalidCases := Some [JBool false]; optional := false |};
      {| name := "b"; validCases := [JNum 1];
         invalidCases := Some [JNum 2]; optional := true |} ]
    None []
  = enumerateCases (recorded positionalExtend) Scenario.configs1 None [].
Proof.
  apply (@enumerateCases_reads_samples_only _ _
           (recorded positionalExtend)).
  repeat constructor.
Defined.

(** X15.  In the single-faulted plan, of an argument other than the
    faulted one only the first valid sample is read: two sequences with
    the same invalid samples at the faulted position and the same first
    valid sample at every position give the same run. *)
Theorem enumerateCases_single_faulted_reads_first_valid :
  forall (World C : Type) (extend : AppendMethod World C)
         (configs configs' : list ArgConfig) (k : Z)
         (faulted faulted' : ArgConfig) (invalid : list JsVal) (w : World),
    Forall2
      (fun conf conf' =>
         elem (validCases conf) 0 = elem (validCases conf') 0)
      configs configs' ->
    index configs k = Some faulted ->
    index configs' k = Some faulted' ->
    invalidCases faulted = Some invalid ->
    invalidCases faulted' = Some invalid ->
    invalid <> [] ->
    enumerateCases extend configs (Some k) w
    = enumerateCases extend configs' (Some k) w.
Proof.
  intros World C extend configs configs' k faulted faulted' invalid w
         Hsame Hidx Hidx' Hinv Hinv' Hne.
  rewrite enumerateCases_faulted_reduce
    with (faulted := faulted) (invalid := invalid) by assumption.
  rewrite enumerateCases_faulted_reduce
    with (faulted := faulted') (invalid := invalid) by assumption.
  eapply reduceFrom_Forall2; [exact Hsame|].
  intros acc x x' j w0 Hfirst. unfold faultedStep.
  destruct (j =? k); [reflexivity|]. now rewrite Hfirst.
Qed.

Lemma enumerateCases_single_faulted_reads_first_valid_witness :
  enumerateCases (recorded positionalExtend) Scenario.configs3 (Some 0) []
  = enumerateCases (recorded positionalExtend)
      [ Scenario.conf [JBool true; JNull] [JBool false; JNum 0] false;
        Scenario.conf [JNum 1] [] true ]
      (Some 0) [].
Proof.
  apply (@enumerateCases_single_faulted_reads_first_valid _ _
           (recorded positionalExtend) Scenario.configs3 _ 0
           (Scenario.conf [JBool true] [JBool false; JNum 0] false)
           (Scenario.conf [JBool true; JNull] [JBool false; JNum 0] false)
           [JBool false; JNum 0] []).
  - repeat constructor.
  - reflexivity.
  - reflexivity.
  - reflexivity.
  - reflexivity.
  - discriminate.
Defined.

(** X16.  The all-valid plan does not read [invalidCases]: two sequences
    with the same valid samples, position by position, give the same run
    when the index is absent. *)
Theorem enumerateCases_all_valid_reads_valid_only :
  forall (World C : Type) (extend : AppendMethod World C)
         (configs configs' : list ArgConfig) (w : World),
    map validCases configs = map validCases configs' ->
    enumerateCases extend configs None w
    = enumerateCases extend configs' None w.
Proof.
  intros World C extend configs configs' w Hmap.
  rewrite !enumerateCases_absent_fold.
  assert (Hgen : forall acc w0,
             foldM (fun acc conf =>
                      appendArgCases extend acc (validCases conf))
               configs acc w0
             = foldM (fun acc conf =>
                        appendArgCases extend acc (validCases conf))
                 configs' acc w0).
  { revert configs' Hmap.
    induction configs as [|conf rest IH]; intros [|conf' rest'] Hmap acc w0;
      try discriminate; [reflexivity|].
    cbn [map] in Hmap. injection Hmap as Hhead Htail.
    cbn [foldM]. unfold bind. rewrite Hhead.
    destruct (appendArgCases extend acc (validCases conf') w0)
      as [[acc'|e] w1]; [now apply IH|reflexivity]. }
  apply Hgen.
Qed.

Lemma enumerateCases_all_valid_reads_valid_only_witness :
  enumerateCases (recorded positionalExtend) Scenario.configsNoInvalid
    None []
  = enumerateCases (recorded positionalExtend) Scenario.configs1 None [].
Proof.
  apply (@enumerateCases_all_valid_reads_valid_only _ _
           (recorded positionalExtend)).
  reflexivity.
Defined.

(** ** [enumerateCases]: a strategy that always throws *)

Lemma appendArgCases_failing (World C : Type) (e : JsVal)
  (cases : list C) (candidates : list JsVal) (w : World) :
  appendArgCases (failing e) cases candidates w
  = match candidates with
    | [] => (Normal [], w)
    | _ :: _ => (Abrupt e, w)
    end.
Proof. destruct candidates; reflexivity. Qed.

(** X17.  All-valid plan with a strategy that throws at every
    invocation: the exception reaches the caller as soon as one argument
    has a valid sample; when no argument has one, the strategy is not
    invoked and the result is the empty case list. *)
Theorem enumerateCases_all_valid_failing :
  forall (World C : Type) (e : JsVal) (configs : list ArgConfig)
         (w : World),
    enumerateCases (@failing World C e) configs None w
    = if existsb (fun conf => negb (length (validCases conf) =? 0)%nat)
           configs
      then (Abrupt e, w)
      else (Normal [], w).
Proof.
  intros World C e configs w. rewrite enumerateCases_absent_fold.
  assert (Hgen : forall acc,
             foldM (fun acc conf =>
                      appendArgCases (@failing World C e) acc
                        (validCases conf))
               configs acc w
             = if existsb
                    (fun conf => negb (length (validCases conf) =? 0)%nat)
                    configs
               then (Abrupt e, w)
               else (Normal (match configs with [] => acc | _ => [] end),
                     w)).
  { induction configs as [|conf rest IH]; intros acc; [reflexivity|].
    cbn [foldM existsb]. unfold bind. rewrite appendArgCases_failing.
    destruct (validCases conf) as [|v valid]; cbn; [|reflexivity].
    rewrite IH. destruct (existsb _ rest); [reflexivity|].
    now destruct rest. }
  rewrite Hgen. destruct (existsb _ configs); [reflexivity|].
  now destruct configs.
Qed.

(** X18.  Single-faulted plan with a strategy that throws at every
    invocation: when the index resolves to a configuration with invalid
    samples, the strategy is invoked and its exception reaches the
    caller, with the world as it was. *)
Theorem enumerateCases_single_faulted_failing :
  forall (World C : Type) (e : JsVal) (configs : list ArgConfig) (k : Z)
         (faulted : ArgConfig) (invalid : list JsVal) (w : World),
    index configs k = Some faulted ->
    invalidCases faulted = Some invalid ->
    invalid <> [] ->
    enumerateCases (@failing World C e) configs (Some k) w = (Abrupt e, w).
Proof.
  intros World C e configs k faulted invalid w Hidx Hinv Hne.
  rewrite enumerateCases_faulted_reduce
    with (faulted := faulted) (invalid := invalid) by assumption.
  destruct configs as [|conf rest].
  - apply index_in_range in Hidx. cbn [length] in Hidx. lia.
  - cbn [reduceFrom]. unfold bind, faultedStep.
    destruct (0 =? k).
    + rewrite appendArgCases_failing.
      destruct invalid; [congruence|reflexivity].
    + reflexivity.
Qed.

Lemma enumerateCases_single_faulted_failing_witness :
  enumerateCases (@failing unit (list JsVal) (JStr "boom"))
    Scenario.configs3 (Some 1) tt
  = (Abrupt (JStr "boom"), tt).
Proof.
  apply (@enumerateCases_single_faulted_failing unit (list JsVal)
           (JStr "boom") Scenario.configs3 1
           (Scenario.conf [JNum 1; JNum 2] [JNum 3] false) [JNum 3] tt).
  - reflexivity.
  - reflexivity.
  - discriminate.
Defined.

(** ** The single-faulted plan as an all-valid plan *)

Lemma appendArgCases_singleton (World C : Type)
  (extend : AppendMethod World C) (cases : list C) (v : JsVal) (w : World) :
  appendArgCases extend cases [v] w = extend cases v w.
Proof.
  unfold appendArgCases, reduce. cbn [reduceFrom]. unfold bind.
  destruct (extend cases v w) as [[r|e] w']; reflexivity.
Qed.

Lemma foldM_map (World A A' B : Type) (g : A -> A')
  (step : B -> A' -> Eff World B) (l : list A) :
  forall acc w,
    foldM step (map g l) acc w = foldM (fun acc x => step acc (g x)) l acc w.
Proof.
  induction l as [|x rest IH]; intros acc w; [reflexivity|].
  cbn [map foldM]. unfold bind.
  destruct (step acc (g x) w) as [[acc'|e] w']; [apply IH|reflexivity].
Qed.

Lemma foldM_ext (World A B : Type) (f g : B -> A -> Eff World B)
  (l : list A) :
  (forall acc x w, f acc x w = g acc x w) ->
  forall acc w, foldM f l acc w = foldM g l acc w.
Proof.
  intros Hfg. induction l as [|x rest IH]; intros acc w; [reflexivity|].
  cbn [foldM]. unfold bind. rewrite Hfg.
  destruct (g acc x w) as [[acc'|e] w']; [apply IH|reflexivity].
Qed.

(** X19.  The single-faulted plan is the all-valid plan of a rewritten
    sequence: the faulted argument offers its invalid samples as if they
    were its valid ones, and every other argument offers one sample
    only, its first valid one ([undefined] for want of one). *)
Theorem enumerateCases_single_faulted_as_all_valid :
  forall (World C : Type) (extend : AppendMethod World C)
         (configs : list ArgConfig) (k : Z) (faulted : ArgConfig)
         (invalid : list JsVal) (w : World),
    index configs k = Some faulted ->
    invalidCases faulted = Some invalid ->
    invalid <> [] ->
    enumerateCases extend configs (Some k) w
    = enumerateCases extend
        (map (fun '(j, conf) =>
                {| name := name conf;
                   validCases :=
                     if j =? k then invalid
                     else [elem (validCases conf) 0];
                   invalidCases := invalidCases conf;
                   optional := optional conf |})
           (withPositions configs))
        None w.
Proof.
  intros World C extend configs k faulted invalid w Hidx Hinv Hne.
  rewrite enumerateCases_faulted_reduce
    with (faulted := faulted) (invalid := invalid) by assumption.
  rewrite enumerateCases_absent_fold, foldM_map.
  unfold withPositions. change 0 with (Z.of_nat 0).
  rewrite reduceFrom_positions.
  apply foldM_ext. intros acc [j conf] w0. unfold faultedStep.
  cbn [validCases]. destruct (j =? k); [reflexivity|].
  now rewrite appendArgCases_singleton.
Qed.

Lemma enumerateCases_single_faulted_as_all_valid_witness :
  enumerateCases (recorded positionalExtend) Scenario.configs3 (Some 0) []
  = enumerateCases (recorded positionalExtend)
      [ Scenario.conf [JBool false; JNum 0] [JBool false; JNum 0] false;
        Scenario.conf [JNum 1] [JNum 3] false ]
      None [].
Proof.
  apply (@enumerateCases_single_faulted_as_all_valid _ _
           (recorded positionalExtend) Scenario.configs3 0
           (Scenario.conf [JBool true] [JBool false; JNum 0] false)
           [JBool false; JNum 0] []).
  - reflexivity.
  - reflexivity.
  - discriminate.
Defined.
